(** * The LangGraph RAG pipeline of [rag-chroma-db] (rag.py, api.py)

    A shallow embedding of the retrieval-augmented-generation engine:
    the context formatter [_format_context], the per-collection graph
    cache [get_graph] (a [functools.lru_cache] of size 8), the two node
    functions [retrieve] and [generate], the linear graph
    START -> retrieve -> generate -> END, the source projection
    [_format_sources] and the [/chat] handler. *)

From stdpp Require Import base strings gmap list pretty.

(** ** Python values and documents *)

(** Values a Chroma metadata dictionary holds, with [None]. *)
Inductive PyVal : Type :=
  | VNone
  | VStr (s : string)
  | VInt (z : Z)
  | VBool (b : bool).

(** [str(v)], as an f-string renders a value. *)
Definition py_str (v : PyVal) : string :=
  match v with
  | VNone => "None"
  | VStr s => s
  | VInt z => pretty z
  | VBool true => "True"
  | VBool false => "False"
  end.

(** [langchain_core.documents.Document]: the metadata attribute may be
    [None] or a dictionary. *)
Record Document : Type := mkDocument {
  page_content : string;
  metadata : option (gmap string PyVal)
}.

(** [doc.metadata or {}]: [None] and the empty dictionary are both falsy. *)
Definition metadata_or_empty (doc : Document) : gmap string PyVal :=
  match metadata doc with
  | Some m => m
  | None => ∅
  end.

(** [d.get(key, dflt)]. *)
Definition dict_get (d : gmap string PyVal) (key : string) (dflt : PyVal) : PyVal :=
  match d !! key with
  | Some v => v
  | None => dflt
  end.

(** The line feed of the Python literals. *)
Definition nl : string := String (Ascii.ascii_of_nat 10) "".

(** [sep.join(parts)]. *)
Fixpoint str_join (sep : string) (parts : list string) : string :=
  match parts with
  | [] => ""
  | [p] => p
  | p :: rest => p +:+ sep +:+ str_join sep rest
  end.

(** ** rag.py: the context formatter *)

Definition SYSTEM_PROMPT : string :=
  "You are a helpful RAG assistant. Use the provided context to answer the question. "
  +:+ "If the context does not contain the answer, say you don't know and suggest what to "
  +:+ "ingest to answer better.".

(** The body of the [for idx, doc in enumerate(docs, start=1)] loop:
    one f-string appended to [chunks]. *)
Definition format_chunk (idx : nat) (doc : Document) : string :=
  let source := dict_get (metadata_or_empty doc) "source" (VStr "unknown") in
  "[" +:+ pretty idx +:+ "] Source: " +:+ py_str source +:+ nl +:+ page_content doc.

(** The loop itself, threading the enumeration index and the list
    [chunks] it appends to. *)
Fixpoint format_loop (idx : nat) (docs : list Document) (chunks : list string)
  : list string :=
  match docs with
  | [] => chunks
  | doc :: rest => format_loop (S idx) rest (chunks ++ [format_chunk idx doc])
  end.

Definition _format_context (docs : list Document) : string :=
  match docs with
  | [] => ""
  | _ => str_join (nl +:+ nl) (format_loop 1 docs [])
  end.

(** ** api.py: the source projection *)

(** The dictionary literal built for one document. *)
Definition source_record (doc : Document) : gmap string PyVal :=
  let meta := metadata_or_empty doc in
  <["source" := dict_get meta "source" VNone]>
    (<["chunk" := dict_get meta "chunk" VNone]>
       (<["id" := dict_get meta "id" VNone]> ∅)).

Fixpoint sources_loop (docs : list Document) (sources : list (gmap string PyVal))
  : list (gmap string PyVal) :=
  match docs with
  | [] => sources
  | doc :: rest => sources_loop rest (sources ++ [source_record doc])
  end.

Definition _format_sources (docs : list Document) : list (gmap string PyVal) :=
  sources_loop docs [].

(** ** Collaborators and effects *)

(** A raised Python exception. *)
Record Exn : Type := mkExn { exn_class : string; exn_message : string }.

Inductive Message : Type :=
  | SystemMessage (text : string)
  | HumanMessage (text : string).

(** The dictionary handed to the stream writer. *)
Record StreamEvent : Type := mkStreamEvent { ev_type : string; ev_content : string }.

(** One [AIMessageChunk] of the model's stream. *)
Record Chunk : Type := mkChunk { content : string }.

(** What [llm.astream(messages)] does when iterated: it yields chunks
    and either ends or raises. *)
Inductive AStream : Type :=
  | StreamEnd
  | StreamYield (chunk : Chunk) (rest : AStream)
  | StreamRaise (e : Exn).

(** The calls a request makes on its collaborators, in the order made. *)
Inductive Event : Type :=
  | EvRetrieve (question : string)
  | EvAstream (messages : list Message)
  | EvWrite (ev : StreamEvent).

(** A computation logs its calls and ends with a value or an exception. *)
Definition M (A : Type) : Type := list Event * (Exn + A).

Definition raise {A : Type} (e : Exn) : M A := ([], inl e).
Definition emit (ev : Event) : M unit := ([ev], inr tt).

Global Instance M_ret : MRet M := λ A (a : A), ([], inr a).
Global Instance M_bind : MBind M := λ A B (f : A → M B) (m : M A),
  match m with
  | (t, inl e) => (t, inl e)
  | (t, inr a) => let '(t', r) := f a in (t ++ t', r)
  end.

Definition Retriever : Type := string → Exn + list Document.
Definition ChatModel : Type := list Message → AStream.

(** ** rag.py: graph state and the two nodes *)

(** [RAGState], a dictionary with at most these three keys; a node
    returns such a dictionary as its update. *)
Record RAGState : Type := mkRAGState {
  st_question : option string;
  st_docs : option (list Document);
  st_answer : option string
}.

Definition or_else {A : Type} (new old : option A) : option A :=
  match new with
  | Some a => Some a
  | None => old
  end.

(** The channel update LangGraph applies after a node: returned keys
    overwrite, the others stay. *)
Definition apply_update (st upd : RAGState) : RAGState :=
  {| st_question := or_else (st_question upd) (st_question st);
     st_docs := or_else (st_docs upd) (st_docs st);
     st_answer := or_else (st_answer upd) (st_answer st) |}.

(** [state["question"]]. *)
Definition state_question (st : RAGState) : M string :=
  match st_question st with
  | Some q => mret q
  | None => raise (mkExn "KeyError" "question")
  end.

Definition NO_CONTEXT_MARKER : string := "[no context retrieved]".

(** Truth value of a Python string. *)
Definition truthy (s : string) : bool :=
  match s with
  | "" => false
  | _ => true
  end.

Definition user_prompt (question context : string) : string :=
  "Question: " +:+ question +:+ nl +:+ nl
  +:+ "Context:" +:+ nl +:+ (if truthy context then context else NO_CONTEXT_MARKER).

Definition token_event (c : string) : StreamEvent :=
  {| ev_type := "token"; ev_content := c |}.

(** The [async for chunk in llm.astream(messages)] loop over [parts]. *)
Fixpoint astream_loop (s : AStream) (parts : list string) : M (list string) :=
  match s with
  | StreamEnd => mret parts
  | StreamRaise e => raise e
  | StreamYield chunk rest =>
      if truthy (content chunk) then
        let parts' := parts ++ [content chunk] in
        _ ← emit (EvWrite (token_event (content chunk)));
        astream_loop rest parts'
      else astream_loop rest parts
  end.

Definition retrieve (retriever : Retriever) (state : RAGState) : M RAGState :=
  question ← state_question state;
  _ ← emit (EvRetrieve question);
  match retriever question with
  | inl e => raise e
  | inr docs => mret {| st_question := None; st_docs := Some docs; st_answer := None |}
  end.

Definition generate (llm : ChatModel) (state : RAGState) : M RAGState :=
  let context := _format_context (default [] (st_docs state)) in
  question ← state_question state;
  let messages := [SystemMessage SYSTEM_PROMPT;
                   HumanMessage (user_prompt question context)] in
  _ ← emit (EvAstream messages);
  parts ← astream_loop (llm messages) [];
  mret {| st_question := None; st_docs := None;
          st_answer := Some (str_join "" parts) |}.

(** ** The state graph *)

Definition START : string := "__start__".
Definition END : string := "__end__".

Record StateGraph : Type := mkStateGraph {
  nodes : list (string * (RAGState → M RAGState));
  edges : list (string * string)
}.

Definition empty_graph : StateGraph := {| nodes := []; edges := [] |}.

Definition add_node (name : string) (fn : RAGState → M RAGState) (g : StateGraph)
  : StateGraph :=
  {| nodes := nodes g ++ [(name, fn)]; edges := edges g |}.

Definition add_edge (src dst : string) (g : StateGraph) : StateGraph :=
  {| nodes := nodes g; edges := edges g ++ [(src, dst)] |}.

(** First binding of a key in an association list. *)
Fixpoint assoc {V : Type} (key : string) (l : list (string * V)) : option V :=
  match l with
  | [] => None
  | (k, v) :: rest => if decide (k = key) then Some v else assoc key rest
  end.

(** LangGraph's default [recursion_limit]. *)
Definition RECURSION_LIMIT : nat := 25.

(** Running a graph whose nodes have one outgoing edge each: follow the
    edge out of [cur], run the node it leads to, merge its update, and
    go on until the edge leads to [END]; each node run costs one step of
    the recursion limit. *)
Fixpoint run_from (limit : nat) (g : StateGraph) (cur : string) (st : RAGState)
  : M RAGState :=
  match assoc cur (edges g) with
  | None => mret st
  | Some next =>
      if decide (next = END) then mret st
      else
        match limit with
        | 0 => raise (mkExn "GraphRecursionError" "recursion limit reached")
        | S limit' =>
            match assoc next (nodes g) with
            | None => raise (mkExn "ValueError" next)
            | Some fn =>
                upd ← fn st;
                run_from limit' g next (apply_update st upd)
            end
        end
  end.

Definition ainvoke (g : StateGraph) (input : RAGState) : M RAGState :=
  run_from RECURSION_LIMIT g START input.

(** The graph [get_graph] assembles from a retriever and a model. *)
Definition build_graph (retriever : Retriever) (llm : ChatModel) : StateGraph :=
  add_edge "generate" END
    (add_edge "retrieve" "generate"
       (add_edge START "retrieve"
          (add_node "generate" (generate llm)
             (add_node "retrieve" (retrieve retriever) empty_graph)))).

(** ** functools.lru_cache *)

(** The bounded wrapper [lru_cache(maxsize)] puts around a function of
    one string argument. The wrapped function runs in a state [St] of its
    own (here: the objects constructed so far). *)
Section LruCache.
Context {V St : Type}.
Variable maxsize : nat.
Variable user_function : string → St → V * St.

(** [entries] lists the cached results, most recently used first. *)
Record Lru : Type := mkLru {
  entries : list (string * V);
  hits : nat;
  misses : nat
}.

Definition lru_empty : Lru := {| entries := []; hits := 0; misses := 0 |}.

Definition drop_key (key : string) (l : list (string * V)) : list (string * V) :=
  filter (λ kv, kv.1 ≠ key) l.

(** A call of the wrapper. A hit moves the entry to the front; a miss
    runs the function and stores the result, dropping the oldest entry
    when the cache is full. With [maxsize = 0] nothing is stored. *)
Definition lru_call (key : string) (c : Lru) (s : St) : V * (Lru * St) :=
  match maxsize with
  | 0 =>
      let '(result, s') := user_function key s in
      (result, ({| entries := entries c; hits := hits c; misses := misses c + 1 |}, s'))
  | _ =>
      match assoc key (entries c) with
      | Some result =>
          (result,
           ({| entries := (key, result) :: drop_key key (entries c);
               hits := hits c + 1; misses := misses c |}, s))
      | None =>
          let '(result, s') := user_function key s in
          let full := bool_decide (maxsize ≤ length (entries c)) in
          let kept := if full then removelast (entries c) else entries c in
          (result,
           ({| entries := (key, result) :: kept;
               hits := hits c; misses := misses c + 1 |}, s'))
      end
  end.

Definition cache_clear (c : Lru) : Lru := lru_empty.

(** [cache_info()]: hits, misses, maxsize, currsize. *)
Definition cache_info (c : Lru) : nat * nat * nat * nat :=
  (hits c, misses c, maxsize, length (entries c)).

(** Everything the wrapper offers its callers. *)
Inductive CacheOp : Type :=
  | OpCall (key : string)
  | OpCacheClear
  | OpCacheInfo.

Definition exec_op (op : CacheOp) (w : Lru * St) : Lru * St :=
  match op with
  | OpCall key => (lru_call key w.1 w.2).2
  | OpCacheClear => (cache_clear w.1, w.2)
  | OpCacheInfo => w
  end.

Definition exec_ops (ops : list CacheOp) (w : Lru * St) : Lru * St :=
  foldl (λ w op, exec_op op w) w ops.

Definition cached_keys (w : Lru * St) : list string := (entries w.1).*1.
End LruCache.

Arguments Lru : clear implicits.
Arguments mkLru {V} _ _ _.
Arguments lru_empty {V}.
Arguments cache_clear {V} _.
Arguments lru_call : simpl never.

(** Keys in order of last use, most recent first, for a history of
    calls given oldest first. *)
Definition touch (key : string) (order : list string) : list string :=
  key :: filter (λ k, k ≠ key) order.

Definition recency (history : list string) : list string :=
  foldl (λ order key, touch key order) [] history.

(** ** rag.py: [get_graph], and api.py: [chat] *)

(** A compiled graph object; [pipe_id] is its identity. *)
Record Pipeline : Type := mkPipeline { pipe_id : nat; pipe_graph : StateGraph }.

Record ChatRequest : Type := mkChatRequest {
  message : string;
  collection : option string
}.

Record ChatResponse : Type := mkChatResponse {
  answer : string;
  sources : list (gmap string PyVal)
}.

(** What the module [chroma_client] provides; [get_vectorstore name k]
    stands for [get_vectorstore(name).as_retriever(search_kwargs={"k": k})]. *)
Record ChromaClient : Type := mkChromaClient {
  DEFAULT_COLLECTION : string;
  DEFAULT_TOP_K : nat;
  get_vectorstore : string → nat → Retriever;
  get_llm : ChatModel
}.

(** The process state: the cache of [get_graph] and the number of
    graphs constructed. *)
Definition World : Type := Lru Pipeline * nat.

Definition initial_world : World := (lru_empty, 0).

Definition constructed (w : World) : nat := w.2.

(** [@lru_cache(maxsize=8)]. *)
Definition MAXSIZE : nat := 8.

Section Rag.
Variable client : ChromaClient.

(** The body of [get_graph]; [built] counts the graphs compiled
    so far and names the new one. *)
Definition get_graph_body (collection_name : string) (built : nat)
  : Pipeline * nat :=
  let retriever := get_vectorstore client collection_name (DEFAULT_TOP_K client) in
  let llm := get_llm client in
  ({| pipe_id := built; pipe_graph := build_graph retriever llm |},
   S built).


Definition get_graph (collection_name : string) (w : World) : Pipeline * World :=
  lru_call MAXSIZE get_graph_body collection_name w.1 w.2.

(** [request.collection or DEFAULT_COLLECTION]. *)
Definition request_collection (request : ChatRequest) : string :=
  match collection request with
  | Some c => if truthy c then c else DEFAULT_COLLECTION client
  | None => DEFAULT_COLLECTION client
  end.

Definition chat (request : ChatRequest) (w : World) : World * M ChatResponse :=
  let collection := request_collection request in
  let '(graph, w') := get_graph collection w in
  (w',
   result ← ainvoke (pipe_graph graph)
              {| st_question := Some (message request);
                 st_docs := None; st_answer := None |};
   mret {| answer := default "" (st_answer result);
           sources := _format_sources (default [] (st_docs result)) |}).
End Rag.

(** ** Callers of [get_graph] that may interleave *)






(** ** Notions the statements use *)

(** The chunks a stream yields before it ends or raises. *)
Fixpoint yielded (s : AStream) : list Chunk :=
  match s with
  | StreamYield chunk rest => chunk :: yielded rest
  | _ => []
  end.

(** The exception a stream ends with, if any. *)
Fixpoint stream_error (s : AStream) : option Exn :=
  match s with
  | StreamYield _ rest => stream_error rest
  | StreamEnd => None
  | StreamRaise e => Some e
  end.

(** What the stream writer received, in order. *)
Definition sink (t : list Event) : list StreamEvent :=
  omap (λ e, match e with EvWrite ev => Some ev | _ => None end) t.

Definition concat_strings (l : list string) : string := foldr String.append "" l.

Definition nonempty_contents (chunks : list Chunk) : list string :=
  filter (λ c, c ≠ "") (content <$> chunks).

(** The two messages [generate] sends for a question and the retrieved
    documents. *)
Definition prompt_messages (question : string) (docs : list Document) : list Message :=
  [SystemMessage SYSTEM_PROMPT; HumanMessage (user_prompt question (_format_context docs))].

(** The [source] entry of a document's metadata, if there is one. *)
Definition metadata_field (field : string) (doc : Document) : option PyVal :=
  match metadata doc with
  | Some m => m !! field
  | None => None
  end.

(** [key] is cached after each of the operations [ops] run from [w]. *)
Fixpoint stays_cached {V St : Type} (maxsize : nat) (f : string → St → V * St)
    (key : string) (ops : list (CacheOp)) (w : Lru V * St) : bool :=
  match ops with
  | [] => true
  | op :: rest =>
      bool_decide (key ∈ cached_keys (exec_op maxsize f op w))
      && stays_cached maxsize f key rest (exec_op maxsize f op w)
  end.

(** The keys called since the cache was last cleared, oldest first. *)
Definition since_clear (ops : list CacheOp) : list string :=
  foldl (λ history op,
           match op with
           | OpCall key => history ++ [key]
           | OpCacheClear => []
           | OpCacheInfo => history
           end) [] ops.

(** The state of the process after the cache operations [ops]. *)
Definition run (client : ChromaClient) (ops : list CacheOp) : World :=
  exec_ops MAXSIZE (get_graph_body client) ops initial_world.

(** The graph [get_graph] compiles for a collection. *)
Definition graph_for (client : ChromaClient) (name : string) : StateGraph :=
  build_graph (get_vectorstore client name (DEFAULT_TOP_K client)) (get_llm client).

(** Every cached graph is the one compiled for its key. *)
Definition world_ok (client : ChromaClient) (w : World) : Prop :=
  Forall (λ kv, pipe_graph kv.2 = graph_for client kv.1) (entries w.1).

(** What an [invalidate(key)] operation would do to the cache: drop the
    entry of [key] and keep every other one, in order. *)
Definition invalidates {V St : Type} (key : string) (w w' : Lru V * St) : Prop :=
  (entries w'.1).*1 = filter (λ k, k ≠ key) (entries w.1).*1.

(** Cached graphs have different identities, all older than the next
    graph to be built. *)
Definition ids_ok (w : World) : Prop :=
  NoDup ((λ kv, pipe_id kv.2) <$> entries w.1) ∧
  Forall (λ kv, pipe_id kv.2 < constructed w) (entries w.1).

(** The number of different keys in a list of calls. *)
Definition distinct_keys (keys : list string) : nat :=
  size (list_to_set keys : gset string).

(** The process state after the [/chat] requests [requests], served
    one after the other. *)
Definition serve (client : ChromaClient) (requests : list ChatRequest) (w : World)
  : World :=
  foldl (λ w request, (chat client request w).1) w requests.

(** ** A sample deployment, for concrete runs *)

Module Sample.
Definition doc_a : Document := mkDocument "a" (Some {["source" := VStr "f1"]}).
Definition doc_b : Document := mkDocument "b" None.

(** An index that is unreachable for collection [down] and otherwise
    returns the first [k] of two documents. *)
Definition vectorstore (name : string) (k : nat) : Retriever :=
  λ _, if decide (name = "down")
       then inl (mkExn "ConnectionError" name)
       else inr (take k [doc_a; doc_b]).

Definition hello : AStream :=
  StreamYield (mkChunk "Hel") (StreamYield (mkChunk "") (StreamYield (mkChunk "lo") StreamEnd)).

Definition broken : AStream :=
  StreamYield (mkChunk "a") (StreamYield (mkChunk "b") (StreamYield (mkChunk "c")
    (StreamRaise (mkExn "APIError" "connection reset")))).

Definition client : ChromaClient :=
  {| DEFAULT_COLLECTION := "docs"; DEFAULT_TOP_K := 4;
     get_vectorstore := vectorstore; get_llm := λ _, hello |}.

Definition failing_client : ChromaClient :=
  {| DEFAULT_COLLECTION := "docs"; DEFAULT_TOP_K := 4;
     get_vectorstore := vectorstore; get_llm := λ _, broken |}.
End Sample.

(** A deployment whose index never finds anything. *)
Definition empty_index_client : ChromaClient :=
  {| DEFAULT_COLLECTION := "docs"; DEFAULT_TOP_K := 4;
     get_vectorstore := λ _ _ _, inr []; get_llm := λ _, Sample.hello |}.

(** * Properties *)

(** ** Strings and the two loops *)

Lemma format_loop_spec (docs : list Document) (idx : nat) (chunks : list string) :
  format_loop idx docs chunks = chunks ++ imap (λ i doc, format_chunk (idx + i) doc) docs.
Proof.
  revert idx chunks.
  induction docs as [|doc rest IH]; intros idx chunks; simpl.
  - by rewrite app_nil_r.
  - rewrite IH, <- app_assoc. simpl. rewrite Nat.add_0_r.
    do 2 f_equal. apply imap_ext. intros i d _. simpl. f_equal. lia.
Qed.

Lemma sources_loop_spec (docs : list Document) (acc : list (gmap string PyVal)) :
  sources_loop docs acc = acc ++ (source_record <$> docs).
Proof.
  revert acc. induction docs as [|doc rest IH]; intros acc; simpl.
  - by rewrite app_nil_r.
  - by rewrite IH, <- app_assoc.
Qed.

Lemma dict_get_metadata (doc : Document) (field : string) (dflt : PyVal) :
  dict_get (metadata_or_empty doc) field dflt = default dflt (metadata_field field doc).
Proof.
  unfold dict_get, metadata_or_empty, metadata_field.
  destruct (metadata doc) as [m|]; [done|]. by rewrite lookup_empty.
Qed.

(** C1, as the code has it: for the empty passage sequence
    [_format_context] returns the empty string, and [generate] puts the
    fixed marker [[no context retrieved]] in its place in the prompt it
    sends to the model, whether the state holds an empty [docs] list or
    no [docs] at all. *)
Theorem format_context_empty_marker_in_prompt (llm : ChatModel) (question : string) :
  let marked :=
    EvAstream [SystemMessage SYSTEM_PROMPT;
               HumanMessage ("Question: " +:+ question +:+ nl +:+ nl +:+
                             "Context:" +:+ nl +:+ "[no context retrieved]")] in
  _format_context [] = "" ∧
  (∃ t, (generate llm (mkRAGState (Some question) (Some []) None)).1 = marked :: t) ∧
  (∃ t, (generate llm (mkRAGState (Some question) None None)).1 = marked :: t).
Proof.
  simpl. split; [done|].
  split; unfold generate; simpl;
    destruct (astream_loop _ _) as [t [e|parts]]; simpl; eauto.
Qed.

(** C1, as stated, fails: on the empty sequence [_format_context]
    returns the empty string, not the marker. *)
Lemma format_context_empty_is_not_marker :
  ¬ (_format_context [] = NO_CONTEXT_MARKER ∧ _format_context [] ≠ "").
Proof. intros [H _]. discriminate H. Qed.

(** C2: for a non-empty sequence of n passages the formatter joins
    exactly n blocks, in input order; block i (counting from 1) reads
    [[i] Source: label], a line feed, and the passage content, where the
    label is the [source] metadata value, or [unknown] when the passage
    has no such field. *)
Theorem format_context_blocks (docs : list Document) :
  docs ≠ [] →
  let chunks := format_loop 1 docs [] in
  _format_context docs = str_join (nl +:+ nl) chunks ∧
  length chunks = length docs ∧
  ∀ i doc, docs !! i = Some doc →
    ∃ label,
      chunks !! i = Some ("[" +:+ pretty (S i) +:+ "] Source: " +:+ label
                          +:+ nl +:+ page_content doc) ∧
      match metadata_field "source" doc with
      | Some v => label = py_str v
      | None => label = "unknown"
      end.
Proof.
  intros Hne chunks. subst chunks. rewrite format_loop_spec. simpl.
  split; [|split].
  - destruct docs; [done|]. unfold _format_context. by rewrite format_loop_spec.
  - by rewrite length_imap.
  - intros i doc Hi. rewrite list_lookup_imap, Hi. simpl.
    unfold format_chunk. rewrite dict_get_metadata.
    destruct (metadata_field "source" doc) as [v|] eqn:Hsrc; simpl; eauto.
Qed.

(** C8: the source projection returns one record per passage, in the
    passages' order; each record has exactly the keys [source], [chunk]
    and [id], holding the passage's metadata value for that key, or
    [None] when the passage has none. *)
Theorem format_sources_projection (docs : list Document) :
  length (_format_sources docs) = length docs ∧
  ∀ i doc, docs !! i = Some doc →
    ∃ r, _format_sources docs !! i = Some r ∧
         dom r = {["source"; "chunk"; "id"]} ∧
         ∀ field, field ∈ ["source"; "chunk"; "id"] →
           r !! field = Some (default VNone (metadata_field field doc)).
Proof.
  unfold _format_sources. rewrite sources_loop_spec. simpl.
  split; [by rewrite length_fmap|].
  intros i doc Hi. exists (source_record doc).
  rewrite list_lookup_fmap, Hi. split; [done|].
  unfold source_record. split.
  - rewrite !dom_insert_L, dom_empty_L. set_solver.
  - intros field Hf. rewrite <- dict_get_metadata.
    repeat (apply elem_of_cons in Hf as [->|Hf]; [by simplify_map_eq|]).
    by apply elem_of_nil in Hf.
Qed.

(** ** The streaming loop and [generate] *)

Lemma append_empty_r (s : string) : s +:+ "" = s.
Proof. induction s as [|a s IH]; [done|]. unfold String.app in *. simpl. by rewrite IH. Qed.

Lemma append_assoc (s1 s2 s3 : string) : (s1 +:+ s2) +:+ s3 = s1 +:+ (s2 +:+ s3).
Proof.
  induction s1 as [|a s1 IH]; [done|]. unfold String.app in *. simpl. by rewrite IH.
Qed.

Lemma str_join_empty_sep (parts : list string) :
  str_join "" parts = concat_strings parts.
Proof.
  induction parts as [|p [|p' rest] IH]; [done| |].
  - simpl. by rewrite append_empty_r.
  - change (str_join "" (p :: p' :: rest)) with (p +:+ "" +:+ str_join "" (p' :: rest)).
    rewrite IH. done.
Qed.

Lemma concat_strings_app (l1 l2 : list string) :
  concat_strings (l1 ++ l2) = concat_strings l1 +:+ concat_strings l2.
Proof.
  induction l1 as [|s l1 IH]; [done|].
  simpl. by rewrite IH, append_assoc.
Qed.

(** Dropping the empty strings does not change a concatenation. *)
Lemma concat_strings_nonempty (chunks : list Chunk) :
  concat_strings (nonempty_contents chunks) = concat_strings (content <$> chunks).
Proof.
  unfold nonempty_contents.
  induction chunks as [|[c] chunks IH]; [done|].
  csimpl. rewrite filter_cons. case_decide as Hc; csimpl.
  - by rewrite IH.
  - by rewrite Hc, IH.
Qed.

Lemma truthy_nonempty (s : string) : truthy s = bool_decide (s ≠ "").
Proof. by destruct s. Qed.

Lemma sink_app (t1 t2 : list Event) : sink (t1 ++ t2) = sink t1 ++ sink t2.
Proof. unfold sink. apply omap_app. Qed.

Lemma sink_writes (evs : list StreamEvent) : sink (EvWrite <$> evs) = evs.
Proof. induction evs as [|ev evs IH]; [done|]. simpl. by f_equal. Qed.

Lemma astream_loop_spec (s : AStream) (parts : list string) :
  astream_loop s parts =
    (EvWrite <$> (token_event <$> nonempty_contents (yielded s)),
     match stream_error s with
     | Some e => inl e
     | None => inr (parts ++ nonempty_contents (yielded s))
     end).
Proof.
  revert parts. induction s as [| [c] rest IH | e]; intros parts; simpl.
  - by rewrite app_nil_r.
  - unfold nonempty_contents. simpl. rewrite filter_cons, truthy_nonempty.
    case_bool_decide as Hc; rewrite decide_bool_decide; case_bool_decide; try done.
    rewrite IH. fold (nonempty_contents (yielded rest)). csimpl.
    destruct (stream_error rest); [done|]. by rewrite <- app_assoc.
  - done.
Qed.

Lemma generate_spec (llm : ChatModel) (st : RAGState) (question : string) :
  st_question st = Some question →
  let messages := prompt_messages question (default [] (st_docs st)) in
  let stream := llm messages in
  generate llm st =
    (EvAstream messages :: (EvWrite <$> (token_event <$> nonempty_contents (yielded stream))),
     match stream_error stream with
     | Some e => inl e
     | None => inr {| st_question := None; st_docs := None;
                      st_answer := Some (str_join "" (nonempty_contents (yielded stream))) |}
     end).
Proof.
  intros Hq. simpl. unfold generate, state_question. rewrite Hq.
  unfold mbind, M_bind, mret, M_ret, emit. simpl.
  fold (prompt_messages question (default [] (st_docs st))).
  rewrite astream_loop_spec.
  destruct (stream_error (llm _)); simpl; [done|].
  by rewrite app_nil_r.
Qed.

(** C10: whatever the model's stream does, the loop of [generate]
    writes to the sink and appends to its buffer exactly the chunks with
    non-empty content, in order; chunks with empty content reach neither
    the sink nor the buffer. *)
Theorem astream_loop_forwards_nonempty (s : AStream) (parts : list string) :
  (astream_loop s parts).1 =
    EvWrite <$> (token_event <$> filter (λ c, c ≠ "") (content <$> yielded s)) ∧
  match (astream_loop s parts).2 with
  | inr parts' => parts' = parts ++ filter (λ c, c ≠ "") (content <$> yielded s)
  | inl e => stream_error s = Some e
  end.
Proof.
  rewrite astream_loop_spec. simpl. split; [done|].
  by destruct (stream_error s).
Qed.

(** C3: when the model's stream ends without raising, [generate]
    returns an answer, and it is the concatenation, in order, of the
    contents written to the sink as [token] events (which is also the
    concatenation of all chunk contents); a stream of zero chunks gives
    the empty answer and an empty sink. *)
Theorem generate_answer_is_concatenation
    (llm : ChatModel) (st : RAGState) (question : string) :
  st_question st = Some question →
  let stream := llm (prompt_messages question (default [] (st_docs st))) in
  stream_error stream = None →
  ∃ t answer,
    generate llm st = (t, inr (mkRAGState None None (Some answer))) ∧
    answer = concat_strings (ev_content <$> sink t) ∧
    Forall (λ ev, ev_type ev = "token") (sink t) ∧
    answer = concat_strings (content <$> yielded stream) ∧
    (yielded stream = [] → answer = "" ∧ sink t = []).
Proof.
  intros Hq stream Hok.
  pose proof (generate_spec llm st question Hq) as Hgen. simpl in Hgen.
  fold stream in Hgen. rewrite Hok in Hgen.
  eexists _, _. split; [exact Hgen|].
  change (EvAstream ?m :: ?l) with ([EvAstream m] ++ l).
  rewrite sink_app, sink_writes. simpl.
  rewrite <- list_fmap_compose, str_join_empty_sep.
  split; [|split; [|split]].
  - f_equal. clear. induction (nonempty_contents _) as [|c l IH]; [done|].
    simpl. by f_equal.
  - apply Forall_fmap, Forall_true. done.
  - apply concat_strings_nonempty.
  - intros ->. done.
Qed.

(** ** Running the graph *)

Lemma ainvoke_build_graph (retriever : Retriever) (llm : ChatModel) (st : RAGState) :
  ainvoke (build_graph retriever llm) st =
    upd1 ← retrieve retriever st;
    upd2 ← generate llm (apply_update st upd1);
    mret (apply_update (apply_update st upd1) upd2).
Proof.
  unfold ainvoke, build_graph. simpl.
  unfold mbind, M_bind.
  destruct (retrieve retriever st) as [t1 [e|upd1]]; [done|].
  destruct (generate llm (apply_update st upd1)) as [t2 [e|upd2]]; done.
Qed.

(** One request through the graph, from the question alone. *)
Lemma ainvoke_question (retriever : Retriever) (llm : ChatModel) (question : string) :
  ainvoke (build_graph retriever llm) (mkRAGState (Some question) None None) =
    match retriever question with
    | inl e => ([EvRetrieve question], inl e)
    | inr docs =>
        let messages := prompt_messages question docs in
        let stream := llm messages in
        (EvRetrieve question :: EvAstream messages ::
           (EvWrite <$> (token_event <$> nonempty_contents (yielded stream))),
         match stream_error stream with
         | Some e => inl e
         | None => inr (mkRAGState (Some question) (Some docs)
                          (Some (str_join "" (nonempty_contents (yielded stream)))))
         end)
    end.
Proof.
  rewrite ainvoke_build_graph. unfold retrieve. simpl.
  destruct (retriever question) as [e|docs]; [done|].
  unfold mbind, M_bind. simpl.
  pose proof (generate_spec llm (mkRAGState (Some question) (Some docs) None)
                question eq_refl) as Hgen.
  simpl in Hgen. unfold apply_update. simpl. rewrite Hgen.
  destruct (stream_error _); simpl; [done|].
  by rewrite app_nil_r.
Qed.

(** ** The LRU wrapper *)

Lemma assoc_is_Some {V : Type} (key : string) (l : list (string * V)) :
  is_Some (assoc key l) ↔ key ∈ l.*1.
Proof.
  induction l as [|[k v] l IH]; simpl.
  - split; [by intros [? ?]|by intros ?%elem_of_nil].
  - case_decide as Hk.
    + subst. split; [intros _; apply elem_of_cons; by left|by eauto].
    + rewrite IH, elem_of_cons. split; [by right|]. by intros [?|?]; [congruence|].
Qed.

Lemma assoc_None {V : Type} (key : string) (l : list (string * V)) :
  assoc key l = None ↔ key ∉ l.*1.
Proof. rewrite <- assoc_is_Some, eq_None_not_Some. done. Qed.

Lemma assoc_app_l {V : Type} (key : string) (l1 l2 : list (string * V)) :
  key ∈ l1.*1 → assoc key (l1 ++ l2) = assoc key l1.
Proof.
  induction l1 as [|[k v] l1 IH]; simpl.
  - by intros ?%elem_of_nil.
  - case_decide; [done|]. intros [?|?]%elem_of_cons; [congruence|auto].
Qed.

Lemma removelast_take {A : Type} (l : list A) :
  removelast l = take (length l - 1) l.
Proof. rewrite removelast_firstn_len. f_equal. lia. Qed.

Lemma assoc_removelast {V : Type} (key : string) (l : list (string * V)) :
  key ∈ (removelast l).*1 → assoc key (removelast l) = assoc key l.
Proof.
  intros Hin. rewrite <- (take_drop (length l - 1) l) at 2.
  rewrite <- removelast_take. by rewrite assoc_app_l.
Qed.

Lemma filter_fst_ne {V : Type} (key : string) (l : list (string * V)) :
  (filter (λ kv, kv.1 ≠ key) l).*1 = filter (λ k, k ≠ key) l.*1.
Proof.
  induction l as [|[k v] l IH]; [done|].
  csimpl. rewrite !filter_cons. simpl. case_decide; csimpl; by rewrite IH.
Qed.

Lemma filter_ne_absent (key : string) (l : list string) :
  key ∉ l → filter (λ k, k ≠ key) l = l.
Proof.
  induction l as [|k l IH]; [done|].
  intros Hnin. apply not_elem_of_cons in Hnin as [Hne Hnin].
  rewrite filter_cons. case_decide; [by rewrite IH|congruence].
Qed.

Lemma filter_ne_present_length (key : string) (l : list string) :
  key ∈ l → length (filter (λ k, k ≠ key) l) < length l.
Proof.
  induction l as [|k l IH]; [by intros ?%elem_of_nil|].
  intros Hin. rewrite filter_cons. simpl. case_decide as Hk.
  - apply elem_of_cons in Hin as [->|Hin]; [done|]. simpl. specialize (IH Hin). lia.
  - pose proof (length_filter (λ k, k ≠ key) l). lia.
Qed.

Lemma filter_ne_NoDup_length (key : string) (l : list string) :
  NoDup l → length l ≤ S (length (filter (λ k, k ≠ key) l)).
Proof.
  induction 1 as [|k l Hk Hnd IH]; [simpl; lia|].
  rewrite filter_cons. case_decide as Hne; simpl; [lia|].
  subst. by rewrite filter_ne_absent.
Qed.

Lemma take_cons_pos {A : Type} (n : nat) (x : A) (l : list A) :
  0 < n → take n (x :: l) = x :: take (n - 1) l.
Proof. destruct n; [lia|]. intros _. simpl. by rewrite Nat.sub_0_r. Qed.

Section LruProofs.
Context {V St : Type}.
Variable maxsize : nat.
Variable f : string → St → V * St.
Hypothesis maxsize_pos : 0 < maxsize.

Lemma assoc_drop_key_ne (key k : string) (l : list (string * V)) :
  k ≠ key → assoc key (drop_key k l) = assoc key l.
Proof.
  intros Hne. unfold drop_key.
  induction l as [|[k' v] l IH]; [done|].
  rewrite filter_cons. simpl. repeat case_decide; simpl; try case_decide; congruence.
Qed.

Lemma lru_call_hit (key : string) (c : Lru V) (s : St) (v : V) :
  assoc key (entries c) = Some v →
  lru_call maxsize f key c s =
    (v, (mkLru ((key, v) :: drop_key key (entries c)) (hits c + 1) (misses c), s)).
Proof.
  intros Hv. unfold lru_call. destruct maxsize; [lia|]. by rewrite Hv.
Qed.

Lemma lru_call_miss (key : string) (c : Lru V) (s : St) :
  assoc key (entries c) = None →
  lru_call maxsize f key c s =
    ((f key s).1,
     (mkLru (((key, (f key s).1)) ::
               (if bool_decide (maxsize ≤ length (entries c))
                then removelast (entries c) else entries c))
            (hits c) (misses c + 1),
      (f key s).2)).
Proof.
  intros Hv. unfold lru_call. destruct maxsize eqn:Hm; [lia|].
  rewrite Hv. by destruct (f key s).
Qed.

(** After a call the key is cached with the value returned. *)
Lemma lru_call_cached (key : string) (c : Lru V) (s : St) :
  assoc key (entries (lru_call maxsize f key c s).2.1) = Some (lru_call maxsize f key c s).1.
Proof.
  destruct (assoc key (entries c)) as [v|] eqn:Hv.
  - rewrite (lru_call_hit _ _ _ _ Hv). simpl. by rewrite decide_True.
  - rewrite (lru_call_miss _ _ _ Hv). simpl. by rewrite decide_True.
Qed.

(** An operation that leaves a key cached leaves its value alone. *)
Lemma exec_op_keeps_value (key : string) (op : CacheOp) (w : Lru V * St) (v : V) :
  assoc key (entries w.1) = Some v →
  key ∈ cached_keys (exec_op maxsize f op w) →
  assoc key (entries (exec_op maxsize f op w).1) = Some v.
Proof.
  intros Hv. destruct op as [k| |]; simpl; [|by intros ?%elem_of_nil|done].
  unfold cached_keys.
  destruct (assoc k (entries w.1)) as [v'|] eqn:Hk.
  - rewrite (lru_call_hit _ _ _ _ Hk). simpl. intros _.
    case_decide as Heq; [congruence|].
    by rewrite assoc_drop_key_ne.
  - rewrite (lru_call_miss _ _ _ Hk). simpl.
    case_decide as Heq; [congruence|].
    intros [?|Hin]%elem_of_cons; [congruence|].
    case_bool_decide; [|done].
    by rewrite assoc_removelast.
Qed.

Lemma stays_cached_keeps_value (key : string) (ops : list CacheOp)
    (w : Lru V * St) (v : V) :
  assoc key (entries w.1) = Some v →
  stays_cached maxsize f key ops w = true →
  assoc key (entries (exec_ops maxsize f ops w).1) = Some v.
Proof.
  revert w. induction ops as [|op ops IH]; intros w Hv; simpl; [done|].
  intros [Hin Hrest]%andb_true_iff. apply bool_decide_eq_true in Hin.
  apply IH; [|done]. by apply exec_op_keeps_value.
Qed.

(** The keys after a call: the key moves to the front, and the list is
    cut to [maxsize]. *)
Lemma cached_keys_call (key : string) (w : Lru V * St) :
  length (cached_keys w) ≤ maxsize →
  cached_keys (exec_op maxsize f (OpCall key) w) = take maxsize (touch key (cached_keys w)).
Proof.
  unfold cached_keys, touch. simpl. rewrite length_fmap. intros Hlen.
  rewrite take_cons_pos by done.
  destruct (assoc key (entries w.1)) as [v|] eqn:Hv.
  - rewrite (lru_call_hit _ _ _ _ Hv). csimpl. f_equal.
    unfold drop_key. rewrite filter_fst_ne.
    assert (key ∈ (entries w.1).*1) as Hin by (apply assoc_is_Some; eauto).
    apply filter_ne_present_length in Hin. rewrite length_fmap in Hin.
    rewrite take_ge; [done|]. lia.
  - rewrite (lru_call_miss _ _ _ Hv). csimpl. f_equal.
    apply assoc_None in Hv. rewrite (filter_ne_absent _ _ Hv).
    case_bool_decide as Hfull.
    + rewrite removelast_take, fmap_take. f_equal. lia.
    + rewrite take_ge; [done|]. rewrite length_fmap. lia.
Qed.

Lemma touch_NoDup (key : string) (order : list string) :
  NoDup order → NoDup (touch key order).
Proof.
  intros Hnd. unfold touch. apply NoDup_cons. split.
  - rewrite list_elem_of_filter. by intros [? _].
  - by apply NoDup_filter.
Qed.

Lemma recency_snoc (history : list string) (key : string) :
  recency (history ++ [key]) = touch key (recency history).
Proof. unfold recency. by rewrite foldl_app. Qed.

Lemma recency_NoDup (history : list string) : NoDup (recency history).
Proof.
  induction history as [|key history IH] using rev_ind; [constructor|].
  rewrite recency_snoc. by apply touch_NoDup.
Qed.

(** Cutting before or after a touch gives the same [maxsize] keys. *)
Lemma take_touch_take (key : string) (order : list string) :
  NoDup order →
  take maxsize (touch key (take maxsize order)) = take maxsize (touch key order).
Proof.
  intros Hnd. unfold touch.
  rewrite !take_cons_pos by done. f_equal.
  destruct (decide (length order ≤ maxsize)) as [Hle|Hgt].
  { by rewrite (take_ge order). }
  rewrite <- (take_drop maxsize order) at 2.
  rewrite filter_app, take_app_le; [done|].
  assert (NoDup (take maxsize order)) as Hnd'.
  { rewrite <- (take_drop maxsize order) in Hnd. by apply NoDup_app in Hnd as [? _]. }
  apply (filter_ne_NoDup_length key) in Hnd'. rewrite length_take in Hnd'. lia.
Qed.

Lemma exec_ops_snoc (ops : list CacheOp) (op : CacheOp) (w : Lru V * St) :
  exec_ops maxsize f (ops ++ [op]) w = exec_op maxsize f op (exec_ops maxsize f ops w).
Proof. unfold exec_ops. by rewrite foldl_app. Qed.

(** The cache holds exactly the [maxsize] most recently used keys
    called since it was last cleared, most recent first. *)
Lemma cached_keys_recency (ops : list CacheOp) (s : St) :
  cached_keys (exec_ops maxsize f ops (lru_empty, s)) =
    take maxsize (recency (since_clear ops)).
Proof.
  induction ops as [|op ops IH] using rev_ind.
  - symmetry. apply take_nil.
  - rewrite exec_ops_snoc. unfold since_clear. rewrite foldl_app. simpl.
    fold (since_clear ops).
    destruct op as [key| |].
    + rewrite cached_keys_call, IH.
      * rewrite recency_snoc. apply take_touch_take, recency_NoDup.
      * rewrite IH, length_take. lia.
    + symmetry. apply take_nil.
    + done.
Qed.
End LruProofs.

(** ** The graph cache and the [/chat] handler *)

Section RagProofs.
Variable client : ChromaClient.

Lemma assoc_Some_elem {V : Type} (key : string) (l : list (string * V)) (v : V) :
  assoc key l = Some v → (key, v) ∈ l.
Proof.
  induction l as [|[k v'] l IH]; simpl; [done|].
  case_decide; [intros [= <-]; subst; apply elem_of_cons; by left|].
  intros Hv. apply elem_of_cons. right. auto.
Qed.

Lemma maxsize_pos : 0 < MAXSIZE.
Proof. unfold MAXSIZE. lia. Qed.

Lemma exec_op_world_ok (op : CacheOp) (w : World) :
  world_ok client w → world_ok client (exec_op MAXSIZE (get_graph_body client) op w).
Proof.
  unfold world_ok. intros Hok. destruct op as [key| |]; simpl; [|constructor|done].
  destruct (assoc key (entries w.1)) as [p|] eqn:Hp.
  - rewrite (lru_call_hit _ _ maxsize_pos _ _ _ _ Hp). simpl.
    apply Forall_cons. split.
    + apply assoc_Some_elem in Hp. rewrite Forall_forall in Hok. apply (Hok _ Hp).
    + unfold drop_key. rewrite Forall_forall in *. intros kv Hkv.
      apply list_elem_of_filter in Hkv as [_ Hkv]. auto.
  - rewrite (lru_call_miss _ _ maxsize_pos _ _ _ Hp). simpl.
    apply Forall_cons. split; [done|].
    case_bool_decide; [|done].
    rewrite removelast_take. by apply Forall_take.
Qed.

Lemma run_world_ok (ops : list CacheOp) : world_ok client (run client ops).
Proof.
  unfold run. induction ops as [|op ops IH] using rev_ind.
  - constructor.
  - rewrite exec_ops_snoc. by apply exec_op_world_ok.
Qed.

(** A cached graph is the graph of its key, so a request behaves the
    same on a hit and on a miss. *)
Lemma get_graph_graph (key : string) (w : World) :
  world_ok client w →
  pipe_graph (get_graph client key w).1 = graph_for client key.
Proof.
  intros Hok.
  pose proof (exec_op_world_ok (OpCall key) w Hok) as Hok'.
  pose proof (lru_call_cached MAXSIZE (get_graph_body client) maxsize_pos key w.1 w.2) as Hc.
  apply assoc_Some_elem in Hc.
  unfold world_ok in Hok'. rewrite Forall_forall in Hok'.
  apply (Hok' _ Hc).
Qed.

Lemma chat_result (ops : list CacheOp) (request : ChatRequest) :
  (chat client request (run client ops)).2 =
    result ← ainvoke (graph_for client (request_collection client request))
               (mkRAGState (Some (message request)) None None);
    mret {| answer := default "" (st_answer result);
            sources := _format_sources (default [] (st_docs result)) |}.
Proof.
  unfold chat.
  pose proof (get_graph_graph (request_collection client request) _ (run_world_ok ops)) as Hg.
  destruct (get_graph client _ _) as [graph w']. simpl in *. by rewrite Hg.
Qed.

(** C7: in every request the retriever is called first and once; if
    it raises, that exception is the request's outcome and neither the
    model nor the sink is called; if it returns passages, the model is
    then called once, with the prompt built from exactly those
    passages, and only sink writes follow. *)
Theorem chat_retrieve_before_generate (ops : list CacheOp) (request : ChatRequest) :
  let question := message request in
  let retriever :=
    get_vectorstore client (request_collection client request) (DEFAULT_TOP_K client) in
  match retriever question with
  | inl e => (chat client request (run client ops)).2 = ([EvRetrieve question], inl e)
  | inr docs =>
      ∃ writes outcome,
        (chat client request (run client ops)).2 =
          (EvRetrieve question :: EvAstream (prompt_messages question docs)
             :: (EvWrite <$> writes), outcome)
  end.
Proof.
  simpl. rewrite chat_result. unfold graph_for. rewrite ainvoke_question.
  destruct (get_vectorstore client _ _ _) as [e|docs]; [done|].
  simpl. unfold mbind, M_bind.
  destruct (stream_error _); simpl; [by eauto|].
  rewrite app_nil_r. by eauto.
Qed.

(** C9: when retrieval succeeds and the model's stream raises after
    some chunks, the request ends with that exception and no response
    (so no answer), and the sink holds a [token] event for every
    non-empty chunk yielded before the failure, in order. *)
Theorem chat_generation_failure
    (ops : list CacheOp) (request : ChatRequest) (docs : list Document) (e : Exn) :
  let question := message request in
  let retriever :=
    get_vectorstore client (request_collection client request) (DEFAULT_TOP_K client) in
  let stream := get_llm client (prompt_messages question docs) in
  retriever question = inr docs →
  stream_error stream = Some e →
  ∃ t,
    (chat client request (run client ops)).2 = (t, inl e) ∧
    sink t = token_event <$> nonempty_contents (yielded stream).
Proof.
  simpl. intros Hdocs Herr.
  rewrite chat_result. unfold graph_for. rewrite ainvoke_question, Hdocs.
  simpl. rewrite Herr. unfold mbind, M_bind. simpl.
  eexists. split; [done|].
  change (?a :: ?b :: ?l) with ([a; b] ++ l).
  by rewrite sink_app, sink_writes.
Qed.

(** C4: a call of [get_graph] followed, after any operations that
    leave the key cached, by another call with the same key: the second
    call returns the very same graph object and constructs nothing;
    the first constructs one graph when the key was not cached and
    none when it was. With no operations in between these are two
    sequential calls. *)
Theorem get_graph_reuses_pipeline (w0 : World) (key : string) (between : list CacheOp) :
  let body := get_graph_body client in
  let first := get_graph client key w0 in
  let w1 := exec_ops MAXSIZE body between first.2 in
  let second := get_graph client key w1 in
  stays_cached MAXSIZE body key between first.2 = true →
  second.1 = first.1 ∧
  constructed second.2 = constructed w1 ∧
  constructed first.2 =
    constructed w0 + (if decide (key ∈ cached_keys w0) then 0 else 1).
Proof.
  simpl. intros Hstay.
  pose proof (lru_call_cached MAXSIZE (get_graph_body client) maxsize_pos key w0.1 w0.2) as Hc.
  pose proof (stays_cached_keeps_value MAXSIZE _ maxsize_pos key between _ _ Hc Hstay) as Hv.
  unfold get_graph in *.
  rewrite !(lru_call_hit _ _ maxsize_pos _ _ _ _ Hv). simpl.
  split; [done|]. split; [done|].
  unfold constructed, cached_keys.
  destruct (assoc key (entries w0.1)) as [p|] eqn:Hp.
  - rewrite (lru_call_hit _ _ maxsize_pos _ _ _ _ Hp). simpl.
    rewrite decide_True; [lia|]. apply assoc_is_Some. eauto.
  - rewrite (lru_call_miss _ _ maxsize_pos _ _ _ Hp). simpl.
    rewrite decide_False; [lia|]. by apply assoc_None.
Qed.

(** C5, as the code has it: the cache never holds more than 8 keys;
    it holds exactly the 8 most recently used keys called since the
    last clear, so the least recently used one is dropped when a ninth
    arrives; and [cache_clear] empties it. *)
Theorem get_graph_cache_is_lru (ops : list CacheOp) :
  length (cached_keys (run client ops)) ≤ 8 ∧
  cached_keys (run client ops) = take 8 (recency (since_clear ops)) ∧
  cached_keys (run client (ops ++ [OpCacheClear])) = [].
Proof.
  unfold run, initial_world.
  rewrite !(cached_keys_recency MAXSIZE _ maxsize_pos).
  split; [|split].
  - rewrite length_take. unfold MAXSIZE. lia.
  - done.
  - unfold since_clear. by rewrite foldl_app.
Qed.
End RagProofs.

(** ** Concrete runs *)

(** C1 on a concrete request: an index that returns nothing still gets
    the marker into the prompt. *)
Example empty_retrieval_prompt :
  (generate (get_llm Sample.client) (mkRAGState (Some "q?") (Some []) None)).1 =
    [EvAstream [SystemMessage SYSTEM_PROMPT;
                HumanMessage ("Question: q?" +:+ nl +:+ nl +:+ "Context:" +:+ nl
                              +:+ "[no context retrieved]")];
     EvWrite (token_event "Hel"); EvWrite (token_event "lo")].
Proof. reflexivity. Qed.

(** C2 at two passages, the second without metadata. *)
Lemma format_context_blocks_witness :
  [Sample.doc_a; Sample.doc_b] ≠ [] ∧
  _format_context [Sample.doc_a; Sample.doc_b] =
    str_join (nl +:+ nl) (format_loop 1 [Sample.doc_a; Sample.doc_b] []) ∧
  length (format_loop 1 [Sample.doc_a; Sample.doc_b] []) = 2.
Proof.
  split; [discriminate|].
  pose proof (format_context_blocks [Sample.doc_a; Sample.doc_b]) as H.
  simpl in H. destruct H as (H1 & H2 & _); [discriminate|]. split; [exact H1|exact H2].
Defined.

Example format_context_scenario_a :
  _format_context [Sample.doc_a; Sample.doc_b] =
    "[1] Source: f1" +:+ nl +:+ "a" +:+ nl +:+ nl +:+ "[2] Source: unknown" +:+ nl +:+ "b".
Proof. reflexivity. Qed.

(** C3 at a stream of three chunks, the second one empty. *)
Lemma generate_answer_is_concatenation_witness :
  let st := mkRAGState (Some "q?") (Some [Sample.doc_a]) None in
  st_question st = Some "q?" ∧
  stream_error (get_llm Sample.client (prompt_messages "q?" [Sample.doc_a])) = None ∧
  ∃ t answer,
    generate (get_llm Sample.client) st = (t, inr (mkRAGState None None (Some answer))) ∧
    answer = concat_strings (ev_content <$> sink t) ∧
    Forall (λ ev, ev_type ev = "token") (sink t) ∧
    answer = concat_strings
               (content <$> yielded (get_llm Sample.client (prompt_messages "q?" [Sample.doc_a]))) ∧
    (yielded (get_llm Sample.client (prompt_messages "q?" [Sample.doc_a])) = [] →
     answer = "" ∧ sink t = []).
Proof.
  split; [reflexivity|]. split; [reflexivity|].
  apply (generate_answer_is_concatenation (get_llm Sample.client)
           (mkRAGState (Some "q?") (Some [Sample.doc_a]) None) "q?"); reflexivity.
Defined.

(** C9 at a model that raises after three chunks. *)
Lemma chat_generation_failure_witness :
  get_vectorstore Sample.failing_client "docs" 4 "q?" = inr [Sample.doc_a; Sample.doc_b] ∧
  stream_error Sample.broken = Some (mkExn "APIError" "connection reset") ∧
  ∃ t,
    (chat Sample.failing_client (mkChatRequest "q?" None) (run Sample.failing_client [])).2 =
      (t, inl (mkExn "APIError" "connection reset")) ∧
    sink t = [token_event "a"; token_event "b"; token_event "c"].
Proof.
  split; [reflexivity|]. split; [reflexivity|].
  apply (chat_generation_failure Sample.failing_client [] (mkChatRequest "q?" None)
           [Sample.doc_a; Sample.doc_b] (mkExn "APIError" "connection reset"));
    reflexivity.
Defined.

(** C4 at a first call on the empty cache, then a call for another
    collection and a [cache_info], then the same key again. *)
Lemma get_graph_reuses_pipeline_witness :
  let body := get_graph_body Sample.client in
  let between := [OpCall "other"; OpCacheInfo] in
  let first := get_graph Sample.client "docs" initial_world in
  let w1 := exec_ops MAXSIZE body between first.2 in
  let second := get_graph Sample.client "docs" w1 in
  stays_cached MAXSIZE body "docs" between first.2 = true ∧
  second.1 = first.1 ∧
  constructed second.2 = constructed w1 ∧
  constructed first.2 = 1.
Proof.
  split; [reflexivity|].
  apply (get_graph_reuses_pipeline Sample.client initial_world "docs"
           [OpCall "other"; OpCacheInfo]).
  reflexivity.
Defined.

(** Scenario C: two requests for the same collection build one graph. *)
Example chat_twice_builds_once :
  let w1 := (chat Sample.client (mkChatRequest "q1" (Some "docs")) initial_world).1 in
  let w2 := (chat Sample.client (mkChatRequest "q2" None) w1).1 in
  constructed w1 = 1 ∧ constructed w2 = 1.
Proof. split; reflexivity. Qed.

(** A ninth collection evicts the least recently used one, which is
    then built again when asked for. *)
Example ninth_key_evicts_oldest :
  let keys := ["a"; "b"; "c"; "d"; "e"; "f"; "g"; "h"; "i"] in
  let w := run Sample.client (OpCall <$> keys) in
  cached_keys w = ["i"; "h"; "g"; "f"; "e"; "d"; "c"; "b"] ∧
  constructed w = 9 ∧
  constructed (get_graph Sample.client "a" w).2 = 10.
Proof. repeat split; reflexivity. Qed.

(** C5, as stated, fails: with [a] and [b] cached, none of the
    operations the cache offers removes [a] and keeps [b], as an
    [invalidate] of [a] would. *)
Lemma get_graph_cache_has_no_invalidate :
  ¬ ∃ op : CacheOp,
      invalidates "a" (run Sample.client [OpCall "a"; OpCall "b"])
        (exec_op MAXSIZE (get_graph_body Sample.client) op
           (run Sample.client [OpCall "a"; OpCall "b"])).
Proof.
  intros [op Hinv]. unfold invalidates in Hinv.
  destruct op as [key| |]; [|discriminate Hinv..].
  simpl in Hinv.
  destruct (assoc key (entries (run Sample.client [OpCall "a"; OpCall "b"]).1))
    as [p|] eqn:Hp.
  - rewrite (lru_call_hit _ _ maxsize_pos _ _ _ _ Hp) in Hinv.
    assert (key ∈ (entries (run Sample.client [OpCall "a"; OpCall "b"]).1).*1) as Hin
      by (apply assoc_is_Some; eauto).
    change (key ∈ ["b"; "a"]) in Hin.
    apply elem_of_cons in Hin as [->|Hin]; [discriminate Hinv|].
    apply elem_of_cons in Hin as [->|Hin]; [discriminate Hinv|].
    by apply elem_of_nil in Hin.
  - rewrite (lru_call_miss _ _ maxsize_pos _ _ _ Hp) in Hinv. discriminate Hinv.
Qed.


(** * Further properties of the code *)

(** ** The context formatter *)

Lemma str_join_cons (sep p : string) (parts : list string) :
  ∃ tail, str_join sep (p :: parts) = p +:+ tail.
Proof.
  destruct parts as [|p' parts].
  - exists "". simpl. by rewrite append_empty_r.
  - by eexists.
Qed.

Lemma str_join_app (sep : string) (l1 l2 : list string) :
  l1 ≠ [] → l2 ≠ [] →
  str_join sep (l1 ++ l2) = str_join sep l1 +:+ sep +:+ str_join sep l2.
Proof.
  intros Hl1 Hl2. induction l1 as [|p [|p' l1] IH]; [done| |].
  - destruct l2; done.
  - change (str_join sep ((p :: p' :: l1) ++ l2))
      with (p +:+ sep +:+ str_join sep ((p' :: l1) ++ l2)).
    rewrite IH by done.
    change (str_join sep (p :: p' :: l1)) with (p +:+ sep +:+ str_join sep (p' :: l1)).
    by rewrite !append_assoc.
Qed.

Lemma format_loop_nil (idx : nat) (docs : list Document) :
  format_loop idx docs [] = [] → docs = [].
Proof.
  rewrite format_loop_spec. destruct docs; [done|]. discriminate.
Qed.

Lemma format_context_join (docs : list Document) :
  docs ≠ [] → _format_context docs = str_join (nl +:+ nl) (format_loop 1 docs []).
Proof. by destruct docs. Qed.

(** X1: the context is empty exactly when there are no passages, so the
    prompt carries the marker exactly then; a non-empty context opens
    with the first citation. *)
Theorem format_context_empty_iff (docs : list Document) (question : string) :
  (_format_context docs = "" ↔ docs = []) ∧
  user_prompt question (_format_context docs) =
    "Question: " +:+ question +:+ nl +:+ nl +:+ "Context:" +:+ nl +:+
    (match docs with [] => "[no context retrieved]" | _ => _format_context docs end) ∧
  match docs with
  | [] => True
  | _ => ∃ rest, _format_context docs = "[1] Source: " +:+ rest
  end.
Proof.
  destruct docs as [|doc docs]; [done|].
  assert (∃ rest, _format_context (doc :: docs) = "[1] Source: " +:+ rest) as [rest Hrest].
  { assert (∃ l, format_loop 1 (doc :: docs) [] = format_chunk 1 doc :: l) as [l Hl].
    { rewrite format_loop_spec. simpl. by eexists. }
    unfold _format_context. rewrite Hl.
    destruct (str_join_cons (nl +:+ nl) (format_chunk 1 doc) l) as [tail ->].
    unfold format_chunk. eexists. rewrite !append_assoc. reflexivity. }
  split; [|split].
  - rewrite Hrest. split; discriminate.
  - unfold user_prompt. by rewrite Hrest.
  - by exists rest.
Qed.

(** X2: appending passages appends blocks: the context of the first
    passages is kept as it is, and the later passages follow after a
    blank line, numbered on from where the first ones stopped. *)
Theorem format_context_app (docs1 docs2 : list Document) :
  docs1 ≠ [] → docs2 ≠ [] →
  _format_context (docs1 ++ docs2) =
    _format_context docs1 +:+ (nl +:+ nl) +:+
    str_join (nl +:+ nl) (format_loop (S (length docs1)) docs2 []).
Proof.
  intros H1 H2.
  assert (format_loop 1 (docs1 ++ docs2) [] =
          format_loop 1 docs1 [] ++ format_loop (S (length docs1)) docs2 []) as Happ.
  { rewrite !format_loop_spec. simpl. by rewrite imap_app. }
  rewrite !format_context_join, Happ; [|done|].
  2: { intros Hd. by apply app_eq_nil in Hd as [? ?]. }
  apply str_join_app.
  - intros Hnil. by apply format_loop_nil in Hnil.
  - intros Hnil. by apply format_loop_nil in Hnil.
Qed.

(** ** Recency order *)

#[local] Set Warnings "-clear-no-such-hyp".

Lemma filter_all {A : Type} (P : A → Prop) `{!∀ x, Decision (P x)} (l : list A) :
  (∀ x, x ∈ l → P x) → filter P l = l.
Proof.
  induction l as [|a l IH]; [done|]. intros HP.
  rewrite filter_cons_True by (apply HP; by left).
  rewrite IH; [done|]. intros x Hx. apply HP. by right.
Qed.

Lemma touch_elem (key k : string) (order : list string) :
  k ∈ touch key order ↔ k = key ∨ k ∈ order.
Proof.
  unfold touch. rewrite elem_of_cons, list_elem_of_filter.
  destruct (decide (k = key)); naive_solver.
Qed.

Lemma recency_elem (history : list string) (k : string) :
  k ∈ recency history ↔ k ∈ history.
Proof.
  induction history as [|key history IH] using rev_ind.
  - done.
  - rewrite recency_snoc, touch_elem, IH, elem_of_app, list_elem_of_singleton.
    naive_solver.
Qed.

Lemma recency_length (history : list string) :
  length (recency history) = distinct_keys history.
Proof.
  unfold distinct_keys.
  rewrite <- (size_list_to_set (C:=gset string) (recency history))
    by apply recency_NoDup.
  f_equal. apply set_eq. intros k.
  by rewrite !elem_of_list_to_set, recency_elem.
Qed.

(** The recency order of a history is that of its last part, followed
    by what the earlier part adds. *)
Lemma recency_app (history later : list string) :
  recency (history ++ later) =
    recency later ++ filter (λ k, k ∉ later) (recency history).
Proof.
  induction later as [|key later IH] using rev_ind.
  - rewrite app_nil_r. simpl. symmetry. apply filter_all.
    intros x _. apply not_elem_of_nil.
  - rewrite app_assoc, !recency_snoc, IH. unfold touch.
    rewrite filter_app, list_filter_filter. simpl. do 2 f_equal.
    apply list_filter_iff. intros x.
    rewrite elem_of_app, list_elem_of_singleton. naive_solver.
Qed.

Lemma since_clear_calls (ops : list CacheOp) (keys : list string) :
  since_clear (ops ++ (OpCall <$> keys)) = since_clear ops ++ keys.
Proof.
  induction keys as [|key keys IH] using rev_ind.
  - by rewrite !app_nil_r.
  - rewrite fmap_app, app_assoc. simpl.
    unfold since_clear in *. rewrite foldl_app. simpl. by rewrite IH, app_assoc.
Qed.

Lemma since_clear_only_calls (keys : list string) :
  since_clear (OpCall <$> keys) = keys.
Proof. apply (since_clear_calls [] keys). Qed.

Lemma distinct_keys_snoc (keys : list string) (key : string) :
  distinct_keys (keys ++ [key]) =
    distinct_keys keys + (if decide (key ∈ keys) then 0 else 1).
Proof.
  unfold distinct_keys. rewrite list_to_set_snoc_L.
  case_decide as Hin.
  - rewrite Nat.add_0_r. f_equal. apply set_eq. intros k.
    rewrite elem_of_union, elem_of_singleton, !elem_of_list_to_set. naive_solver.
  - rewrite size_union, size_singleton; [done|].
    apply disjoint_singleton_r. by rewrite elem_of_list_to_set.
Qed.

(** ** The cache over many calls *)

Section CacheProofs.
Variable client : ChromaClient.

Lemma get_graph_constructed (key : string) (w : World) :
  constructed (get_graph client key w).2 =
    constructed w + (if decide (key ∈ cached_keys w) then 0 else 1).
Proof.
  unfold get_graph, constructed, cached_keys.
  destruct (assoc key (entries w.1)) as [p|] eqn:Hp.
  - rewrite (lru_call_hit _ _ maxsize_pos _ _ _ _ Hp). simpl.
    rewrite decide_True; [lia|]. apply assoc_is_Some. eauto.
  - rewrite (lru_call_miss _ _ maxsize_pos _ _ _ Hp). simpl.
    rewrite decide_False; [lia|]. by apply assoc_None.
Qed.

Lemma run_cached_keys (ops : list CacheOp) :
  cached_keys (run client ops) = take MAXSIZE (recency (since_clear ops)).
Proof. apply cached_keys_recency, maxsize_pos. Qed.

Lemma run_snoc (ops : list CacheOp) (op : CacheOp) :
  run client (ops ++ [op]) = exec_op MAXSIZE (get_graph_body client) op (run client ops).
Proof. apply exec_ops_snoc. Qed.

Lemma chat_world (request : ChatRequest) (w : World) :
  (chat client request w).1 = (get_graph client (request_collection client request) w).2.
Proof. unfold chat. by destruct (get_graph client _ w). Qed.

Lemma serve_run (requests : list ChatRequest) :
  serve client requests initial_world =
    run client (OpCall <$> (request_collection client <$> requests)).
Proof.
  unfold serve. induction requests as [|request requests IH] using rev_ind; [done|].
  rewrite foldl_app, !fmap_app. csimpl. rewrite run_snoc, <- IH.
  simpl. by rewrite chat_world.
Qed.

(** While the calls name at most 8 different collections, every
    collection named so far is cached and was built once. *)
Lemma calls_constructed (keys : list string) :
  distinct_keys keys ≤ MAXSIZE →
  constructed (run client (OpCall <$> keys)) = distinct_keys keys ∧
  cached_keys (run client (OpCall <$> keys)) = recency keys.
Proof.
  induction keys as [|key keys IH] using rev_ind; [done|].
  rewrite distinct_keys_snoc. intros Hle.
  destruct IH as [IHc IHk]; [lia|].
  assert (cached_keys (run client (OpCall <$> keys ++ [key])) = recency (keys ++ [key]))
    as Hkeys.
  { rewrite run_cached_keys, since_clear_only_calls.
    apply take_ge. rewrite recency_length, distinct_keys_snoc. lia. }
  split; [|done].
  rewrite fmap_app. csimpl. rewrite run_snoc. simpl.
  fold (get_graph client key (run client (OpCall <$> keys))).
  rewrite get_graph_constructed, IHc, IHk. f_equal.
  destruct (decide (key ∈ recency keys)) as [Hin|Hin]; rewrite recency_elem in Hin.
  - by rewrite decide_True.
  - by rewrite decide_False.
Qed.

(** X8: requests that name at most 8 different collections (an absent or
    empty name counting as the default one) build exactly one graph per
    collection, however often and in whatever order they come. *)
Theorem chats_build_one_graph_per_collection (requests : list ChatRequest) :
  let keys := request_collection client <$> requests in
  distinct_keys keys ≤ 8 →
  constructed (serve client requests initial_world) = distinct_keys keys.
Proof.
  simpl. intros Hle. rewrite serve_run. by apply calls_constructed.
Qed.

(** X9: once a collection has been asked for, its graph stays cached as
    long as the calls from that one on name at most 8 different
    collections, whatever was cached before. *)
Theorem get_graph_survives_seven_others
    (ops : list CacheOp) (key : string) (later : list string) :
  distinct_keys (key :: later) ≤ 8 →
  key ∈ cached_keys (run client (ops ++ (OpCall <$> key :: later))).
Proof.
  intros Hle. rewrite run_cached_keys, since_clear_calls, recency_app.
  assert (key ∈ recency (key :: later)) as Hin.
  { apply recency_elem. by left. }
  apply list_elem_of_lookup in Hin as [i Hi].
  pose proof (lookup_lt_Some _ _ _ Hi) as Hlt. rewrite recency_length in Hlt.
  apply elem_of_take. exists i. split; [|unfold MAXSIZE; lia].
  rewrite lookup_app_l; [done|]. rewrite recency_length. lia.
Qed.
End CacheProofs.

(** ** Graph objects and the counters of the cache *)

Lemma NoDup_fmap_filter {A B : Type} (f : A → B) (P : A → Prop)
    `{!∀ x, Decision (P x)} (l : list A) :
  NoDup (f <$> l) → NoDup (f <$> filter P l).
Proof.
  induction l as [|a l IH]; [done|].
  csimpl. intros [Hnin Hnd]%NoDup_cons. rewrite filter_cons.
  case_decide; [|by auto]. csimpl. apply NoDup_cons. split; [|by auto].
  intros (y & Hy & Hin)%list_elem_of_fmap. apply list_elem_of_filter in Hin as [_ Hin].
  apply Hnin. rewrite Hy. by apply list_elem_of_fmap_2.
Qed.

Lemma NoDup_fmap_eq {A B : Type} (f : A → B) (l : list A) (x y : A) :
  NoDup (f <$> l) → x ∈ l → y ∈ l → f x = f y → x = y.
Proof.
  induction l as [|a l IH]; [by intros _ ?%elem_of_nil|].
  csimpl. intros [Hnin Hnd]%NoDup_cons Hx Hy Hxy.
  apply elem_of_cons in Hx as [->|Hx]; apply elem_of_cons in Hy as [->|Hy].
  - done.
  - destruct Hnin. rewrite Hxy. by apply list_elem_of_fmap_2.
  - destruct Hnin. rewrite <- Hxy. by apply list_elem_of_fmap_2.
  - by apply IH.
Qed.

Lemma since_clear_snoc (ops : list CacheOp) (op : CacheOp) :
  since_clear (ops ++ [op]) =
    match op with
    | OpCall key => since_clear ops ++ [key]
    | OpCacheClear => []
    | OpCacheInfo => since_clear ops
    end.
Proof. unfold since_clear. by rewrite foldl_app. Qed.

Section IdentityProofs.
Variable client : ChromaClient.

Lemma exec_op_ids_ok (op : CacheOp) (w : World) :
  ids_ok w → ids_ok (exec_op MAXSIZE (get_graph_body client) op w).
Proof.
  intros [Hnd Hlt]. destruct op as [key| |]; simpl; [|by split; constructor|done].
  destruct (assoc key (entries w.1)) as [p|] eqn:Hp.
  - rewrite (lru_call_hit _ _ maxsize_pos _ _ _ _ Hp). unfold ids_ok, constructed. simpl.
    apply assoc_Some_elem in Hp. split.
    + apply NoDup_cons. split; [|by apply NoDup_fmap_filter].
      intros (kv & Hid & Hin)%list_elem_of_fmap.
      apply list_elem_of_filter in Hin as [Hne Hin].
      apply Hne. symmetry in Hid.
      by rewrite (NoDup_fmap_eq _ _ _ _ Hnd Hin Hp Hid).
    + apply Forall_cons. split.
      * rewrite Forall_forall in Hlt. apply (Hlt _ Hp).
      * unfold drop_key. rewrite Forall_forall in *. intros kv Hkv.
        apply list_elem_of_filter in Hkv as [_ Hkv]. auto.
  - rewrite (lru_call_miss _ _ maxsize_pos _ _ _ Hp). unfold ids_ok, constructed in *.
    simpl.
    set (kept := if bool_decide (MAXSIZE ≤ length (entries w.1))
                 then removelast (entries w.1) else entries w.1).
    assert (Forall (λ kv, pipe_id kv.2 < w.2) kept) as Hkept.
    { unfold kept. case_bool_decide; [|done]. rewrite removelast_take.
      by apply Forall_take. }
    assert (NoDup ((λ kv, pipe_id kv.2) <$> kept)) as Hndk.
    { unfold kept. case_bool_decide; [|done]. rewrite removelast_take, fmap_take.
      eapply sublist_NoDup; [exact Hnd|apply sublist_take]. }
    split.
    + apply NoDup_cons. split; [|done].
      intros (kv & Hid & Hin)%list_elem_of_fmap.
      rewrite Forall_forall in Hkept. specialize (Hkept _ Hin). simpl in Hid. lia.
    + apply Forall_cons. split; [simpl; lia|].
      eapply Forall_impl; [exact Hkept|]. simpl. intros; lia.
Qed.

Lemma run_ids_ok (ops : list CacheOp) : ids_ok (run client ops).
Proof.
  induction ops as [|op ops IH] using rev_ind.
  - split; constructor.
  - rewrite run_snoc. by apply exec_op_ids_ok.
Qed.

(** X11: no collection is cached twice, no two cached collections share a
    graph object, and a graph built on a miss is a new object, different
    from every cached one. *)
Theorem cached_graphs_are_distinct_objects (ops : list CacheOp) (key : string) :
  let w := run client ops in
  NoDup (cached_keys w) ∧
  NoDup ((λ kv, pipe_id kv.2) <$> entries w.1) ∧
  (key ∉ cached_keys w →
   pipe_id (get_graph client key w).1 = constructed w ∧
   Forall (λ kv, pipe_id kv.2 ≠ pipe_id (get_graph client key w).1) (entries w.1)).
Proof.
  simpl. destruct (run_ids_ok ops) as [Hnd Hlt]. split; [|split; [done|]].
  - rewrite run_cached_keys.
    eapply sublist_NoDup; [apply recency_NoDup|apply sublist_take].
  - intros Hnin. apply assoc_None in Hnin. unfold get_graph.
    rewrite (lru_call_miss _ _ maxsize_pos _ _ _ Hnin). simpl.
    split; [done|]. eapply Forall_impl; [exact Hlt|].
    unfold constructed. simpl. intros; lia.
Qed.

(** X12: [cache_info()] after any operations: the capacity is 8, hits and
    misses add up to the calls made since the last [cache_clear], and
    the current size is the number of different collections called
    since then, capped at 8. *)
Theorem cache_info_counts (ops : list CacheOp) :
  let '(h, m, maxsize, currsize) := cache_info MAXSIZE (run client ops).1 in
  maxsize = 8 ∧
  h + m = length (since_clear ops) ∧
  currsize = distinct_keys (since_clear ops) `min` 8.
Proof.
  unfold cache_info. split; [done|]. split.
  - induction ops as [|op ops IH] using rev_ind; [done|].
    rewrite run_snoc, since_clear_snoc. destruct op as [key| |]; simpl; [|done..].
    rewrite length_app. simpl.
    destruct (assoc key (entries (run client ops).1)) as [p|] eqn:Hp.
    + rewrite (lru_call_hit _ _ maxsize_pos _ _ _ _ Hp). simpl. lia.
    + rewrite (lru_call_miss _ _ maxsize_pos _ _ _ Hp). simpl. lia.
  - pose proof (run_cached_keys client ops) as Hk. unfold cached_keys in Hk.
    rewrite <- (length_fmap fst), Hk, length_take, recency_length.
    unfold MAXSIZE. lia.
Qed.

(** X7: a request for the collection the previous request used builds no
    graph, whatever the outcome of the previous request; an absent and
    an empty collection name both stand for the default collection. *)
Theorem chat_same_collection_reuses_graph (w : World) (req1 req2 : ChatRequest) :
  request_collection client req1 = request_collection client req2 →
  constructed (chat client req2 (chat client req1 w).1).1 =
    constructed (chat client req1 w).1.
Proof.
  intros Heq. rewrite !chat_world, <- Heq, get_graph_constructed.
  rewrite decide_True; [lia|].
  apply assoc_is_Some. unfold get_graph.
  rewrite (lru_call_cached MAXSIZE (get_graph_body client) maxsize_pos). eauto.
Qed.
End IdentityProofs.

(** ** The [/chat] handler end to end *)

Section ChatProofs.
Variable client : ChromaClient.

(** What a request does, from the client's collaborators alone. *)
Lemma chat_outcome (ops : list CacheOp) (request : ChatRequest) :
  let question := message request in
  let retriever :=
    get_vectorstore client (request_collection client request) (DEFAULT_TOP_K client) in
  (chat client request (run client ops)).2 =
    match retriever question with
    | inl e => ([EvRetrieve question], inl e)
    | inr docs =>
        let stream := get_llm client (prompt_messages question docs) in
        (EvRetrieve question :: EvAstream (prompt_messages question docs) ::
           (EvWrite <$> (token_event <$> nonempty_contents (yielded stream))),
         match stream_error stream with
         | Some e => inl e
         | None =>
             inr {| answer := str_join "" (nonempty_contents (yielded stream));
                    sources := _format_sources docs |}
         end)
    end.
Proof.
  simpl. rewrite chat_result. unfold graph_for. rewrite ainvoke_question.
  destruct (get_vectorstore client _ _ _) as [e|docs]; [done|].
  simpl. unfold mbind, M_bind.
  destruct (stream_error _); simpl; [done|].
  by rewrite app_nil_r.
Qed.

(** X3: a request whose retrieval and generation both go through is
    answered with the concatenation of the model's chunks, which is what
    the sink received, and with one source record per retrieved passage,
    in the retriever's order. *)
Theorem chat_success (ops : list CacheOp) (request : ChatRequest) (docs : list Document) :
  let question := message request in
  let retriever :=
    get_vectorstore client (request_collection client request) (DEFAULT_TOP_K client) in
  let stream := get_llm client (prompt_messages question docs) in
  retriever question = inr docs →
  stream_error stream = None →
  ∃ t response,
    (chat client request (run client ops)).2 = (t, inr response) ∧
    answer response = concat_strings (content <$> yielded stream) ∧
    answer response = concat_strings (ev_content <$> sink t) ∧
    sources response = source_record <$> docs.
Proof.
  simpl. intros Hdocs Hok.
  pose proof (chat_outcome ops request) as Hchat. simpl in Hchat.
  rewrite Hdocs, Hok in Hchat.
  eexists _, _. split; [exact Hchat|]. cbn [answer sources].
  rewrite str_join_empty_sep, concat_strings_nonempty.
  split; [done|]. split.
  - change (?a :: ?b :: ?l) with ([a; b] ++ l).
    rewrite sink_app, sink_writes. change (sink [_; _]) with (@nil StreamEvent).
    rewrite app_nil_l, <- list_fmap_compose, <- concat_strings_nonempty. f_equal.
    clear. induction (nonempty_contents _) as [|c l IH]; [done|].
    csimpl. by f_equal.
  - unfold _format_sources. by rewrite sources_loop_spec.
Qed.

(** X5: whatever a request runs into, the sink only ever receives [token]
    events with non-empty content. *)
Theorem chat_sink_receives_nonempty_tokens (ops : list CacheOp) (request : ChatRequest) :
  Forall (λ ev, ev_type ev = "token" ∧ ev_content ev ≠ "")
    (sink (chat client request (run client ops)).2.1).
Proof.
  pose proof (chat_outcome ops request) as Hchat. simpl in Hchat. rewrite Hchat.
  destruct (get_vectorstore client _ _ _) as [e|docs]; [by constructor|].
  cbn [fst]. change (?a :: ?b :: ?l) with ([a; b] ++ l).
  rewrite sink_app, sink_writes. change (sink [_; _]) with (@nil StreamEvent).
  rewrite app_nil_l.
  apply Forall_fmap, Forall_forall. intros c Hc. simpl.
  unfold nonempty_contents in Hc. by apply list_elem_of_filter in Hc as [Hc _].
Qed.

(** X6: the cache is transparent: what a request does and returns does not
    depend on which graphs were cached, evicted or cleared before it. *)
Theorem chat_outcome_independent_of_cache
    (ops1 ops2 : list CacheOp) (request : ChatRequest) :
  (chat client request (run client ops1)).2 = (chat client request (run client ops2)).2.
Proof. by rewrite !chat_result. Qed.

(** X4: when the retriever finds nothing, the model is still asked, with
    the marker in place of a context, and a successful response lists no
    sources. *)
Theorem chat_empty_retrieval (ops : list CacheOp) (request : ChatRequest) :
  let question := message request in
  let retriever :=
    get_vectorstore client (request_collection client request) (DEFAULT_TOP_K client) in
  retriever question = inr [] →
  ∃ writes outcome,
    (chat client request (run client ops)).2 =
      (EvRetrieve question ::
       EvAstream [SystemMessage SYSTEM_PROMPT;
                  HumanMessage ("Question: " +:+ question +:+ nl +:+ nl +:+
                                "Context:" +:+ nl +:+ "[no context retrieved]")] ::
       (EvWrite <$> writes), outcome) ∧
    match outcome with
    | inr response => sources response = []
    | inl _ => True
    end.
Proof.
  simpl. intros Hdocs.
  pose proof (chat_outcome ops request) as Hchat. simpl in Hchat.
  rewrite Hdocs in Hchat. rewrite Hchat.
  eexists _, _. split; [reflexivity|].
  by destruct (stream_error _).
Qed.
End ChatProofs.

(** ** Concrete runs of the further properties *)

(** X2 on a concrete run. *)
Lemma format_context_app_witness :
  [Sample.doc_a] ≠ [] ∧ [Sample.doc_b] ≠ [] ∧
  _format_context ([Sample.doc_a] ++ [Sample.doc_b]) =
    _format_context [Sample.doc_a] +:+ (nl +:+ nl) +:+
    str_join (nl +:+ nl) (format_loop 2 [Sample.doc_b] []).
Proof.
  split; [discriminate|]. split; [discriminate|].
  apply (format_context_app [Sample.doc_a] [Sample.doc_b]); discriminate.
Defined.

(** X8 on a concrete run. *)
Lemma chats_build_one_graph_per_collection_witness :
  let requests := [mkChatRequest "q1" None; mkChatRequest "q2" (Some "hr");
                   mkChatRequest "q3" (Some ""); mkChatRequest "q4" (Some "hr")] in
  distinct_keys (request_collection Sample.client <$> requests) ≤ 8 ∧
  constructed (serve Sample.client requests initial_world) =
    distinct_keys (request_collection Sample.client <$> requests).
Proof.
  simpl. split; [vm_compute; lia|].
  apply (chats_build_one_graph_per_collection Sample.client
           [mkChatRequest "q1" None; mkChatRequest "q2" (Some "hr");
            mkChatRequest "q3" (Some ""); mkChatRequest "q4" (Some "hr")]).
  vm_compute. lia.
Defined.

(** X9 on a concrete run. *)
Lemma get_graph_survives_seven_others_witness :
  distinct_keys ["docs"; "hr"; "legal"; "hr"] ≤ 8 ∧
  "docs" ∈ cached_keys
    (run Sample.client
       ([OpCall "a"; OpCall "b"] ++ (OpCall <$> ["docs"; "hr"; "legal"; "hr"]))).
Proof.
  split; [vm_compute; lia|].
  apply (get_graph_survives_seven_others Sample.client
           [OpCall "a"; OpCall "b"] "docs" ["hr"; "legal"; "hr"]).
  vm_compute. lia.
Defined.

(** X7 on a concrete run. *)
Lemma chat_same_collection_reuses_graph_witness :
  let req1 := mkChatRequest "q1" None in
  let req2 := mkChatRequest "q2" (Some "") in
  request_collection Sample.client req1 = request_collection Sample.client req2 ∧
  constructed (chat Sample.client req2 (chat Sample.client req1 initial_world).1).1 =
    constructed (chat Sample.client req1 initial_world).1.
Proof.
  simpl. split; [reflexivity|].
  apply (chat_same_collection_reuses_graph Sample.client initial_world
           (mkChatRequest "q1" None) (mkChatRequest "q2" (Some ""))).
  reflexivity.
Defined.

(** X3 on a concrete run. *)
Lemma chat_success_witness :
  get_vectorstore Sample.client "docs" 4 "q?" = inr [Sample.doc_a; Sample.doc_b] ∧
  stream_error Sample.hello = None ∧
  ∃ t response,
    (chat Sample.client (mkChatRequest "q?" None) (run Sample.client [])).2 =
      (t, inr response) ∧
    answer response = concat_strings (content <$> yielded Sample.hello) ∧
    answer response = concat_strings (ev_content <$> sink t) ∧
    sources response = source_record <$> [Sample.doc_a; Sample.doc_b].
Proof.
  split; [reflexivity|]. split; [reflexivity|].
  apply (chat_success Sample.client [] (mkChatRequest "q?" None)
           [Sample.doc_a; Sample.doc_b]); reflexivity.
Defined.

(** X4 on a concrete run. *)
Lemma chat_empty_retrieval_witness :
  get_vectorstore empty_index_client "docs" 4 "q?" = inr [] ∧
  ∃ writes outcome,
    (chat empty_index_client (mkChatRequest "q?" None) (run empty_index_client [])).2 =
      (EvRetrieve "q?" ::
       EvAstream [SystemMessage SYSTEM_PROMPT;
                  HumanMessage ("Question: " +:+ "q?" +:+ nl +:+ nl +:+
                                "Context:" +:+ nl +:+ "[no context retrieved]")] ::
       (EvWrite <$> writes), outcome) ∧
    match outcome with
    | inr response => sources response = []
    | inl _ => True
    end.
Proof.
  split; [reflexivity|].
  apply (chat_empty_retrieval empty_index_client [] (mkChatRequest "q?" None)).
  reflexivity.
Defined.

(** ** Eviction *)

(** X10: once 8 other collections have been asked for since a collection
    was last used, it is no longer cached, and the next call for it
    builds a new graph. *)
Theorem get_graph_evicted_after_eight_others
    (client : ChromaClient) (ops : list CacheOp) (key : string) (later : list string) :
  (key ∉ later) →
  (8 ≤ distinct_keys later) →
  let w := run client (ops ++ (OpCall <$> key :: later)) in
  (key ∉ cached_keys w) ∧
  constructed (get_graph client key w).2 = constructed w + 1.
Proof.
  intros Hnin Hge. simpl.
  assert (key ∉ cached_keys (run client (ops ++ (OpCall <$> key :: later)))) as Hout.
  { rewrite run_cached_keys, since_clear_calls.
    change (key :: later) with ([key] ++ later).
    rewrite app_assoc, recency_app, take_app_le.
    - intros Hin. apply Hnin, recency_elem. eapply subseteq_take. exact Hin.
    - rewrite recency_length. unfold MAXSIZE. lia. }
  split; [done|].
  rewrite get_graph_constructed. by rewrite decide_False.
Qed.

(** X10 on a concrete run. *)
Lemma get_graph_evicted_after_eight_others_witness :
  let later := ["a"; "b"; "c"; "d"; "e"; "f"; "g"; "h"] in
  let w := run Sample.client ([OpCall "z"] ++ (OpCall <$> "docs" :: later)) in
  ("docs" ∉ later) ∧
  (8 ≤ distinct_keys later) ∧
  ("docs" ∉ cached_keys w) ∧
  constructed (get_graph Sample.client "docs" w).2 = constructed w + 1.
Proof.
  simpl.
  assert ("docs" ∉ ["a"; "b"; "c"; "d"; "e"; "f"; "g"; "h"]) as Hnin.
  { intros Hin. repeat (apply elem_of_cons in Hin as [Heq|Hin]; [discriminate Heq|]).
    by apply elem_of_nil in Hin. }
  assert (8 ≤ distinct_keys ["a"; "b"; "c"; "d"; "e"; "f"; "g"; "h"]) as Hge.
  { vm_compute. lia. }
  split; [exact Hnin|]. split; [exact Hge|].
  exact (get_graph_evicted_after_eight_others Sample.client [OpCall "z"] "docs"
           ["a"; "b"; "c"; "d"; "e"; "f"; "g"; "h"] Hnin Hge).
Defined.

(** ** Callers in turn and callers interleaved *)







